(** * Graph Diffusion Convolution: the [gdc] preprocessing function

    A shallow embedding of the function [gdc] of [gdc_demo.ipynb] and the
    properties its specification states about it, followed by [evaluate]
    and the loop over the epochs of [run].

    Conventions of the embedding.
    - A float is an element of a real closed field [R]: rounding is not
      modelled, and neither are the IEEE values inf and nan.  Where numpy
      divides by zero (and goes on, with a warning) the model has the
      field's quotient, [x / 0 = 0]; where numpy takes the square root of a
      negative number the model has [Num.sqrt x = 0].  At such a point the
      model and numpy differ in the value; what is stated below about such
      points (a column that sums to zero, a degree that is zero) is that a
      value is not 1, or that the call returns, which holds of both.
    - A scipy sparse [N x N] matrix is a matrix ['M[R]_N]: the storage format
      is not modelled, only the entries, and each library call stands for
      the matrix operation it computes.
    - A Python call either returns a value or raises: [outcome]. *)

From HB Require Import structures.
From mathcomp Require Import boot order algebra.
From mathcomp Require Import algC.

Set Implicit Arguments.
Unset Strict Implicit.
Unset Printing Implicit Defensive.

Import Order.TTheory GRing.Theory Num.Theory.
Local Open Scope ring_scope.

(** ** Outcomes of a Python call *)

(** The one exception the function can meet: [sp.linalg.inv] factorises its
    argument and raises [RuntimeError] when the factor is exactly singular. *)
Inductive exn : Type := RuntimeError.

Inductive outcome (X : Type) : Type :=
  | Return of X
  | Raise of exn.

Arguments Return {X} _.
Arguments Raise {X} _.

Definition bind {X Y : Type} (c : outcome X) (k : X -> outcome Y) : outcome Y :=
  match c with
  | Return x => k x
  | Raise e => Raise e
  end.

Notation "x <- c ;; k" := (bind c (fun x => k))
  (at level 61, c at next level, right associativity).

(** ** The function [gdc], stage by stage *)

Section GDC.

Variable R : rcfType.
Variable N : nat.

Implicit Types (A S T M : 'M[R]_N) (alpha eps : R).

(** [A_loop = sp.eye(N) + A] *)
Definition A_loop A : 'M[R]_N := 1%:M + A.

(** [D_loop_vec = A_loop.sum(0).A1]: summing over axis 0 adds the rows up,
    entry [j] is the sum of column [j]. *)
Definition D_loop_vec A : 'rV[R]_N := \row_j \sum_i A_loop A i j.

(** [D_loop_vec_invsqrt = 1 / np.sqrt(D_loop_vec)] *)
Definition D_loop_vec_invsqrt A : 'rV[R]_N :=
  \row_j (1 / Num.sqrt (D_loop_vec A 0 j)).

(** [D_loop_invsqrt = sp.diags(D_loop_vec_invsqrt)] *)
Definition D_loop_invsqrt A : 'M[R]_N := diag_mx (D_loop_vec_invsqrt A).

(** [T_sym = D_loop_invsqrt @ A_loop @ D_loop_invsqrt] *)
Definition T_sym A : 'M[R]_N := D_loop_invsqrt A *m A_loop A *m D_loop_invsqrt A.

(** Lines 54-60 as one step.  They contain no test and no [raise]; numpy's
    division by zero is a warning, not an exception. *)
Definition transition_builder A : outcome 'M[R]_N := Return (T_sym A).

(** [sp.linalg.inv] *)
Definition inv M : outcome 'M[R]_N :=
  if M \in unitmx then Return (invmx M) else Raise RuntimeError.

(** [S = alpha * sp.linalg.inv(sp.eye(N) - (1 - alpha) * T_sym)] *)
Definition ppr alpha T : outcome 'M[R]_N :=
  X <- inv (1%:M - (1 - alpha) *: T) ;; Return (alpha *: X).

(** [S >= eps]: the entrywise comparison, a matrix of booleans. *)
Definition ge_scalar S eps : 'M[bool]_N := \matrix_(i, j) (eps <= S i j)%R.

(** [S.multiply(B)]: the entrywise product; a boolean counts as 0 or 1. *)
Definition multiply S (B : 'M[bool]_N) : 'M[R]_N :=
  \matrix_(i, j) (S i j * (B i j)%:R).

(** [S_tilde = S.multiply(S >= eps)] *)
Definition sparsify eps S : 'M[R]_N := multiply S (ge_scalar S eps).

(** [D_tilde_vec = S_tilde.sum(0).A1] *)
Definition D_tilde_vec S : 'rV[R]_N := \row_j \sum_i S i j.

(** [T_S = S_tilde / D_tilde_vec]: the vector is broadcast along the rows,
    entry [(i, j)] is divided by entry [j] of the vector. *)
Definition renormalize S : 'M[R]_N :=
  \matrix_(i, j) (S i j / D_tilde_vec S 0 j).

Definition gdc A alpha eps : outcome 'M[R]_N :=
  T <- transition_builder A ;;
  S <- ppr alpha T ;;
  let S_tilde := sparsify eps S in
  let T_S := renormalize S_tilde in
  Return T_S.

(** ** Vocabulary of the specification *)

Definition symmetric A : Prop := A^T = A.

Definition nonneg A : Prop := forall i j, 0 <= A i j.

Definition col_sum M (j : 'I_N) : R := \sum_i M i j.

Definition row_sum M (i : 'I_N) : R := \sum_j M i j.

End GDC.

(** ** The formulas of the specification

    Written from the specification's words, to be compared with the stages
    of [gdc] above. *)

Section Specification.

Variable R : rcfType.
Variable N : nat.

Implicit Types (A S : 'M[R]_N) (alpha eps : R).

(** The degree of node [i]: row [i] of [A + I] summed. *)
Definition degree A (i : 'I_N) : R := row_sum (A + 1%:M) i.

(** [D^{-1/2}], for [D] the diagonal matrix of the degrees. *)
Definition spec_D_invsqrt A : 'M[R]_N :=
  diag_mx (\row_i Num.sqrt (degree A i)^-1).

(** [T = D^{-1/2} (A + I) D^{-1/2}] *)
Definition spec_T A : 'M[R]_N :=
  spec_D_invsqrt A *m (A + 1%:M) *m spec_D_invsqrt A.

(** [S = alpha * (I - (1 - alpha) * T)^{-1}] *)
Definition spec_S A alpha : 'M[R]_N :=
  alpha *: invmx (1%:M - (1 - alpha) *: spec_T A).

(** Threshold mode: keep [S i j] iff [S i j >= eps], zero elsewhere. *)
Definition threshold eps S : 'M[R]_N :=
  \matrix_(i, j) (if eps <= S i j then S i j else 0).

(** Divide each column by its sum. *)
Definition col_normalize S : 'M[R]_N :=
  \matrix_(i, j) (S i j / col_sum S j).

(** Every column sums to 1. *)
Definition column_stochastic S : Prop := forall j, col_sum S j = 1.

End Specification.

(** ** Concrete inputs, over the real algebraic numbers *)

(** Two nodes joined by one edge. *)
Definition path2 : 'M[algR]_2 := \matrix_(i, j) (i != j)%:R.

(** Its diffusion matrix for [alpha = 1/2]. *)
Definition path2_S : 'M[algR]_2 :=
  \matrix_(i, j) (if i == j then 3 / 4 else 1 / 4).

(** A malformed input: the same two nodes with an edge of weight -1, so that
    both degrees of [A + I] are 0. *)
Definition neg_edge : 'M[algR]_2 := - path2.

(** ** Evaluation and the training loop

    [evaluate] and the loop over the epochs of [run].  The network is not
    modelled: a row of [logits] is an element of a type [logit_row], on which
    [max(1)[1]] is [row_argmax]; the network with its optimizer is a state
    of a type [model], [train] is one call of [train(model, optimizer,
    dataset.data)] and [forward] is [model(data)] in evaluation mode.
    An accuracy, the quotient of two counts, is a rational number.  The one
    exception of these lines, [ZeroDivisionError], is [None]. *)

Section Training.

Variable logit_row : Type.
Variable row_argmax : logit_row -> nat.

(** The fields of [data] that [evaluate] reads, one entry per node. *)
Record Data : Type := MkData {
  data_y : seq nat;
  val_mask : bitseq;
  test_mask : bitseq
}.

(** [pred = logits[mask].max(1)[1]]
    [acc = pred.eq(data.y[mask]).sum().item() / mask.sum().item()] *)
Definition accuracy (logits : seq logit_row) (labels : seq nat) (m : bitseq)
  : option rat :=
  let pred := [seq row_argmax r | r <- mask m logits] in
  let hits := count (fun pl => pl.1 == pl.2) (zip pred (mask m labels)) in
  let total := count id m in
  if total == 0%N then None else Some (hits%:R / total%:R).

(** The dictionary [evaluate] returns: key [val_acc], and key [test_acc]
    when [test] is set. *)
Record eval_dict : Type := EvalDict {
  val_acc : rat;
  test_acc : option rat
}.

Definition evaluate (logits : seq logit_row) (data : Data) (test : bool)
  : option eval_dict :=
  if accuracy logits (data_y data) (val_mask data) is Some v then
    if test then
      if accuracy logits (data_y data) (test_mask data) is Some t
      then Some (EvalDict v (Some t)) else None
    else Some (EvalDict v None)
  else None.

(** [tmp_dict]: key [val_acc] from the start, keys [epoch] and [test_acc]
    once they have been assigned. *)
Record tmp_dict : Type := TmpDict {
  tmp_val_acc : rat;
  tmp_epoch : option nat;
  tmp_test_acc : option rat
}.

(** [tmp_dict = {'val_acc': 0}] *)
Definition tmp_dict0 : tmp_dict := TmpDict 0 None None.

(** [tmp_dict['epoch'] = epoch] and [tmp_dict[k] = v] for the items of
    [eval_dict]. *)
Definition record_epoch (tmp : tmp_dict) (epoch : nat) (e : eval_dict)
  : tmp_dict :=
  TmpDict (val_acc e) (Some epoch)
          (if test_acc e is Some t then Some t else tmp_test_acc tmp).

Variable model : Type.
Variable train : model -> model.
Variable forward : model -> seq logit_row.

Variable data : Data.
Variable test : bool.
Variables max_epochs patience : nat.

(** The loop [for epoch in range(1, max_epochs + 1)], from the epochs that
    are left, the state of the network, [patience_counter] and [tmp_dict]. *)
Fixpoint epoch_loop (epochs : seq nat) (m : model) (patience_counter : nat)
    (tmp : tmp_dict) : option (model * tmp_dict) :=
  match epochs with
  | [::] => Some (m, tmp)
  | epoch :: epochs' =>
    if patience_counter == patience then Some (m, tmp)
    else
      let m' := train m in
      if evaluate (forward m') data test is Some e then
        if val_acc e < tmp_val_acc tmp
        then epoch_loop epochs' m' patience_counter.+1 tmp
        else epoch_loop epochs' m' 0 (record_epoch tmp epoch e)
      else None
  end.

(** The body of the loop over the seeds, from [patience_counter = 0] to the
    end of the loop over the epochs, on its own.  ([run] wraps [seeds] in
    [tqdm_notebook], a name the imports of the notebook do not bind: they
    bind [tqdm].) *)
Definition run_seed (m : model) : option (model * tmp_dict) :=
  epoch_loop (iota 1 max_epochs) m 0 tmp_dict0.

(** The shapes [logits[mask]] and [data.y[mask]] ask for: the logits, the
    labels and the two masks have one entry per node. *)
Definition well_shaped : Prop :=
  [/\ forall m, size (forward m) = size (data_y data),
      size (val_mask data) = size (data_y data)
    & size (test_mask data) = size (data_y data)].

End Training.

(** A network on four nodes that counts its training steps and, after [k]
    of them, predicts class 0 for the first [k] nodes and class 1 for the
    others. *)
Definition steps_forward (k : nat) : seq nat :=
  nseq (minn k 4) 0%N ++ nseq (4 - k) 1%N.

(** A network on four nodes that does the same for two training steps and
    from the third on predicts class 1 for every node. *)
Definition peak_forward (k : nat) : seq nat :=
  if (k <= 2)%N then nseq k 0%N ++ nseq (4 - k) 1%N else nseq 4 1%N.

(** Four nodes of class 0; two are validation nodes, two are test nodes. *)
Definition four_nodes : Data :=
  MkData [:: 0; 0; 0; 0]%N [:: true; true; false; false]
         [:: false; false; true; true].


(** ** The transition builder *)

Section TransitionBuilder.

Variable R : rcfType.
Variable N : nat.

Implicit Types (A : 'M[R]_N).

Lemma A_loopE A i j : A_loop A i j = (i == j)%:R + A i j.
Proof. by rewrite /A_loop !mxE. Qed.

Lemma D_loop_vec_sum A j : D_loop_vec A 0 j = \sum_i A_loop A i j.
Proof. by rewrite mxE. Qed.

Lemma D_loop_vecE A j : D_loop_vec A 0 j = 1 + col_sum A j.
Proof.
rewrite /D_loop_vec /col_sum mxE.
under eq_bigr do rewrite A_loopE.
rewrite big_split /=; congr (_ + _).
by rewrite (bigD1 j) //= eqxx big1 ?addr0 // => i /negPf ->.
Qed.

Lemma T_symE A i j :
  T_sym A i j = D_loop_vec_invsqrt A 0 i * A_loop A i j * D_loop_vec_invsqrt A 0 j.
Proof. by rewrite /T_sym /D_loop_invsqrt mul_mx_diag mul_diag_mx !mxE. Qed.

Section Nonneg.

Variable A : 'M[R]_N.
Hypothesis A_ge0 : nonneg A.

Lemma A_loop_ge0 i j : 0 <= A_loop A i j.
Proof. by rewrite A_loopE addr_ge0 ?ler0n. Qed.

Lemma D_loop_vec_ge1 j : 1 <= D_loop_vec A 0 j.
Proof. by rewrite D_loop_vecE lerDl sumr_ge0. Qed.

Lemma D_loop_vec_gt0 j : 0 < D_loop_vec A 0 j.
Proof. exact: lt_le_trans ltr01 (D_loop_vec_ge1 j). Qed.

Lemma D_loop_vec_invsqrt_gt0 j : 0 < D_loop_vec_invsqrt A 0 j.
Proof. by rewrite mxE div1r invr_gt0 sqrtr_gt0 D_loop_vec_gt0. Qed.

Lemma D_loop_vec_invsqrt_sqr j :
  D_loop_vec_invsqrt A 0 j * D_loop_vec_invsqrt A 0 j * D_loop_vec A 0 j = 1.
Proof.
have d0 := D_loop_vec_gt0 j.
rewrite mxE div1r -invfM -expr2 sqr_sqrtr ?ltW // mulVf //.
by rewrite gt_eqF.
Qed.

Lemma T_sym_ge0 i j : 0 <= T_sym A i j.
Proof.
rewrite T_symE; apply: mulr_ge0; last exact: ltW (D_loop_vec_invsqrt_gt0 j).
by apply: mulr_ge0; [exact: ltW (D_loop_vec_invsqrt_gt0 i) | exact: A_loop_ge0].
Qed.

End Nonneg.

End TransitionBuilder.

(** ** The matrix that is inverted *)

Section Dominance.

Variable R : rcfType.
Variable N : nat.

(** A matrix whose off-diagonal entries are non-positive and whose columns
    have positive sums is monotone: a row vector with a non-negative image
    is non-negative.  The proof looks at the least entry of the vector. *)
Lemma zmx_monotone (B : 'M[R]_N) (y : 'rV[R]_N) :
  (forall i j, i != j -> B i j <= 0) ->
  (forall j, 0 < col_sum B j) ->
  (forall j, 0 <= (y *m B) 0 j) ->
  forall j, 0 <= y 0 j.
Proof.
move=> Boff Bcol yB j0; rewrite leNgt; apply/negP => yj0.
case: (@arg_minP _ _ _ j0 xpredT (fun j => y 0 j)) => // j _ jmin.
have yj : y 0 j < 0 by exact: le_lt_trans (jmin j0 isT) yj0.
have bound : (y *m B) 0 j <= y 0 j * col_sum B j.
  rewrite mxE /col_sum mulr_sumr; apply: ler_sum => i _.
  have [-> //|ij] := eqVneq i j.
  by apply: ler_wnM2r; [exact: Boff | exact: jmin].
have neg : y 0 j * col_sum B j < 0 by rewrite nmulr_rlt0.
by have := le_lt_trans (le_trans (yB j) bound) neg; rewrite ltxx.
Qed.

Variable A : 'M[R]_N.
Variable alpha : R.
Hypothesis A_ge0 : nonneg A.
Hypothesis alpha_gt0 : 0 < alpha.
Hypothesis alpha_le1 : alpha <= 1.

Let M : 'M[R]_N := 1%:M - (1 - alpha) *: T_sym A.
Let s := D_loop_vec_invsqrt A.
Let B : 'M[R]_N :=
  \matrix_(i, j) ((i == j)%:R * D_loop_vec A 0 j - (1 - alpha) * A_loop A i j).

Lemma ppr_matrixE i j : M i j = (i == j)%:R - (1 - alpha) * T_sym A i j.
Proof. by rewrite /M; move: (T_sym A) => T; rewrite !mxE. Qed.

Lemma ppr_scaledE i j :
  B i j = (i == j)%:R * D_loop_vec A 0 j - (1 - alpha) * A_loop A i j.
Proof. by rewrite /B mxE. Qed.

Lemma ppr_matrix_scaled i j : M i j = s 0 i * B i j * s 0 j.
Proof.
rewrite ppr_matrixE ppr_scaledE T_symE -/s [s 0 i * (_ - _)]mulrBr [RHS]mulrBl.
congr (_ - _); last by rewrite !mulrA [s 0 i * _]mulrC.
have [->|_] := eqVneq i j; last by rewrite mul0r mulr0 mul0r.
by rewrite mul1r mulrAC /s D_loop_vec_invsqrt_sqr.
Qed.

Lemma ppr_matrix_off i j : i != j -> B i j <= 0.
Proof.
move=> /negPf ij; rewrite ppr_scaledE ij mul0r sub0r oppr_le0.
by rewrite mulr_ge0 ?subr_ge0 // A_loop_ge0.
Qed.

Lemma ppr_matrix_col j : 0 < col_sum B j.
Proof.
rewrite /col_sum; under eq_bigr do rewrite ppr_scaledE.
rewrite sumrB -mulr_sumr -mulr_suml.
rewrite (bigD1 j) //= eqxx big1 ?addr0; first by move=> i /negPf ->.
rewrite -D_loop_vec_sum.
rewrite mul1r -[X in X - _]mul1r -mulrBl opprB addrC subrK.
by rewrite mulr_gt0 // D_loop_vec_gt0.
Qed.

(** The inverted matrix is monotone as well. *)
Lemma ppr_matrix_monotone (y : 'rV[R]_N) :
  (forall j, 0 <= (y *m M) 0 j) -> forall j, 0 <= y 0 j.
Proof.
move=> yM j.
pose z : 'rV[R]_N := \row_i (y 0 i * s 0 i).
have zB k : 0 <= (z *m B) 0 k.
  have sk : 0 < s 0 k by exact: D_loop_vec_invsqrt_gt0.
  rewrite -(pmulr_lge0 _ sk) mxE mulr_suml.
  have := yM k; rewrite mxE; congr (_ <= _); apply: eq_bigr => i _.
  by rewrite ppr_matrix_scaled !mxE !mulrA.
have := zmx_monotone ppr_matrix_off ppr_matrix_col zB j.
by rewrite mxE pmulr_lge0 //; exact: D_loop_vec_invsqrt_gt0.
Qed.

Lemma ppr_matrix_unit : M \in unitmx.
Proof.
rewrite -row_free_unit -kermx_eq0; apply/rowV0P => v /sub_kermxP vM.
have v_ge0 : forall j, 0 <= v 0 j.
  by apply: ppr_matrix_monotone => j; rewrite vM mxE.
have v_le0 : forall j, 0 <= (- v) 0 j.
  by apply: ppr_matrix_monotone => j; rewrite mulNmx vM oppr0 mxE.
apply/rowP => j; rewrite [RHS]mxE; apply/le_anti/andP; split=> //.
by have := v_le0 j; rewrite mxE oppr_ge0.
Qed.

Lemma ppr_inverse_ge0 i j : 0 <= invmx M i j.
Proof.
have rowM : row i (invmx M) *m M = row i 1%:M.
  by rewrite -row_mul mulVmx // ppr_matrix_unit.
have := @ppr_matrix_monotone (row i (invmx M)) _ j; rewrite mxE; apply.
by move=> k; rewrite rowM !mxE ler0n.
Qed.

Lemma ppr_inverse_diag j : 1 <= invmx M j j.
Proof.
have : (M *m invmx M) j j = 1 by rewrite mulmxV ?ppr_matrix_unit // mxE eqxx.
rewrite mxE; under eq_bigr do rewrite ppr_matrixE mulrBl.
rewrite sumrB (bigD1 j) //= eqxx mul1r big1 ?addr0.
  by move=> k /negPf kj; rewrite eq_sym kj mul0r.
move/eqP; rewrite subr_eq => /eqP ->; rewrite lerDl.
apply: sumr_ge0 => k _; apply: mulr_ge0; last exact: ppr_inverse_ge0.
by rewrite mulr_ge0 ?subr_ge0 // T_sym_ge0.
Qed.

End Dominance.

(** ** The transition operator is symmetric exactly when the graph is *)

Section Symmetry.

Variable R : rcfType.
Variable N : nat.

Implicit Types (A : 'M[R]_N).

Lemma A_loop_sym A i j : symmetric A -> A_loop A j i = A_loop A i j.
Proof. by move=> symA; rewrite !A_loopE eq_sym -[in LHS]symA mxE. Qed.

(** C7. For a non-negative adjacency matrix [A], the transition operator
    [T_sym A] is symmetric if and only if [A] is, and every diagonal entry
    of [A + I] is at least 1. *)
Theorem T_sym_symmetric_iff A :
  nonneg A ->
  (symmetric (T_sym A) <-> symmetric A) /\ (forall i, 1 <= A_loop A i i).
Proof.
move=> A_ge0; split; last by move=> i; rewrite A_loopE eqxx lerDl.
have s_gt0 := D_loop_vec_invsqrt_gt0 A_ge0.
split=> [symT|symA]; apply/matrixP=> i j; rewrite mxE; last first.
  by rewrite !T_symE A_loop_sym //; ring.
have := congr1 (fun X : 'M[R]_N => X i j) symT; rewrite mxE !T_symE => Tji.
set si := D_loop_vec_invsqrt A 0 i in Tji; set sj := D_loop_vec_invsqrt A 0 j in Tji.
have ss_neq0 : si * sj != 0 by rewrite mulf_neq0 // lt0r_neq0 // s_gt0.
have : si * sj * A_loop A j i = si * sj * A_loop A i j.
  by transitivity (sj * A_loop A j i * si); [ring | rewrite Tji; ring].
by move/(mulfI ss_neq0); rewrite !A_loopE eq_sym => /addrI.
Qed.

End Symmetry.

(** ** The sparsifier *)

Section Sparsifier.

Variable R : rcfType.
Variable N : nat.

Implicit Types (S : 'M[R]_N) (eps : R).

Lemma sparsifyE eps S (i j : 'I_N) :
  sparsify eps S i j = if eps <= S i j then S i j else 0.
Proof.
rewrite /sparsify /multiply /ge_scalar !mxE.
by case: (eps <= S i j); rewrite ?mulr1 ?mulr0.
Qed.

(** C4. Threshold sparsification keeps entry [(i, j)] exactly when
    [S i j >= eps], the bound included, and every other entry of the result
    is exactly zero. *)
Theorem sparsify_threshold eps S (i j : 'I_N) :
  sparsify eps S i j = if eps <= S i j then S i j else 0.
Proof. exact: sparsifyE. Qed.

Lemma sparsify_is_threshold eps S : sparsify eps S = threshold eps S.
Proof. by apply/matrixP=> i j; rewrite sparsifyE mxE. Qed.

Lemma sparsify_ge0 eps S :
  (forall i j, 0 <= S i j) -> forall i j, 0 <= sparsify eps S i j.
Proof. by move=> S_ge0 i j; rewrite sparsifyE; case: ifP. Qed.

End Sparsifier.

(** ** The renormalizer *)

Section Renormalizer.

Variable R : rcfType.
Variable N : nat.

Implicit Types (S : 'M[R]_N).

Lemma D_tilde_vecE S j : D_tilde_vec S 0 j = col_sum S j.
Proof. by rewrite mxE. Qed.

Lemma renormalizeE S i j : renormalize S i j = S i j / col_sum S j.
Proof. by rewrite mxE D_tilde_vecE. Qed.

Lemma renormalize_is_col_normalize S : renormalize S = col_normalize S.
Proof. by apply/matrixP=> i j; rewrite renormalizeE mxE. Qed.

Lemma col_sum_renormalize S j :
  col_sum (renormalize S) j = col_sum S j / col_sum S j.
Proof.
rewrite {1}/col_sum; under eq_bigr do rewrite renormalizeE.
by rewrite -mulr_suml.
Qed.

Lemma col_sum_renormalize1 S j :
  col_sum S j != 0 -> col_sum (renormalize S) j = 1.
Proof. by move=> d_neq0; rewrite col_sum_renormalize divff. Qed.

(** C8, as the code has it. On a matrix whose columns all have a nonzero
    sum, every column sums to 1 after one pass of the renormalizer, and a
    second pass changes nothing. *)
Theorem renormalize_idempotent S :
  (forall j, col_sum S j != 0) ->
  column_stochastic (renormalize S) /\
  renormalize (renormalize S) = renormalize S.
Proof.
move=> d_neq0; split=> [j|]; first exact: col_sum_renormalize1.
apply/matrixP=> i j; rewrite [LHS]renormalizeE.
by rewrite col_sum_renormalize1 // divr1.
Qed.

(** C10. In a column with a positive sum, renormalizing divides every
    entry by that one sum: the nonzero positions are the same before and
    after, and the entries keep their proportions. *)
Theorem renormalize_pattern S (j : 'I_N) :
  0 < col_sum S j ->
  forall i,
    [/\ renormalize S i j = S i j / col_sum S j,
        (renormalize S i j != 0) = (S i j != 0)
      & forall k, renormalize S i j * S k j = renormalize S k j * S i j].
Proof.
move=> d_gt0 i; have d_neq0 := lt0r_neq0 d_gt0.
split; first exact: renormalizeE.
  by rewrite renormalizeE mulf_eq0 invr_eq0 (negPf d_neq0) orbF.
by move=> k; rewrite !renormalizeE mulrAC [RHS]mulrAC [S k j * _]mulrC.
Qed.

Lemma renormalize_zero_diag S (j : 'I_N) :
  col_sum S j = 0 -> renormalize S j j != 1.
Proof. by move=> d0; rewrite renormalizeE d0 invr0 mulr0 eq_sym oner_eq0. Qed.

Lemma col_sum_renormalize0 S (j : 'I_N) :
  col_sum S j = 0 -> col_sum (renormalize S) j != 1.
Proof. by move=> d0; rewrite col_sum_renormalize d0 mul0r eq_sym oner_eq0. Qed.

(** C2, as the code has it. There is no fallback for a column that sums to
    zero: its entries are divided by the sum like those of any other column,
    its diagonal entry is not made 1 and the column of the result does not
    sum to 1. *)
Theorem renormalize_zero_column S (j : 'I_N) :
  col_sum S j = 0 ->
  [/\ forall i, renormalize S i j = S i j / col_sum S j,
      renormalize S j j != 1
    & col_sum (renormalize S) j != 1].
Proof.
move=> d0; split; first by move=> i; exact: renormalizeE.
  exact: renormalize_zero_diag.
exact: col_sum_renormalize0.
Qed.

End Renormalizer.

(** ** The diffusion kernel *)

Section Diffusion.

Variable R : rcfType.
Variable N : nat.

Implicit Types (A S T M : 'M[R]_N) (alpha eps : R).

Lemma inv_unit M : M \in unitmx -> inv M = Return (invmx M).
Proof. by rewrite /inv => ->. Qed.

Lemma inv_singular M : M \notin unitmx -> inv M = Raise RuntimeError.
Proof. by rewrite /inv => /negPf ->. Qed.

Lemma pprE alpha T :
  ppr alpha T =
  if 1%:M - (1 - alpha) *: T \in unitmx
  then Return (alpha *: invmx (1%:M - (1 - alpha) *: T))
  else Raise RuntimeError.
Proof. by rewrite /ppr /inv; case: ifP. Qed.

Lemma gdcE A alpha eps :
  gdc A alpha eps =
  if 1%:M - (1 - alpha) *: T_sym A \in unitmx
  then Return (renormalize (sparsify eps
                 (alpha *: invmx (1%:M - (1 - alpha) *: T_sym A))))
  else Raise RuntimeError.
Proof. by rewrite /gdc /transition_builder /= pprE; case: ifP. Qed.

Lemma ppr_teleport T : ppr 1 T = Return 1%:M.
Proof. by rewrite pprE subrr scale0r subr0 unitmx1 invmx1 scale1r. Qed.

(** C5, as the code has it. With [alpha = 1] the diffusion matrix is the
    identity matrix, whatever the transition operator: the walk teleports
    at once. *)
Theorem ppr_alpha1 T : ppr 1 T = Return 1%:M.
Proof. exact: ppr_teleport. Qed.

Section Valid.

Variables (A : 'M[R]_N) (alpha : R).
Hypothesis A_ge0 : nonneg A.
Hypothesis alpha_gt0 : 0 < alpha.
Hypothesis alpha_le1 : alpha <= 1.

Let S : 'M[R]_N := alpha *: invmx (1%:M - (1 - alpha) *: T_sym A).

Lemma ppr_T_sym : ppr alpha (T_sym A) = Return S.
Proof. by rewrite pprE ppr_matrix_unit. Qed.

Lemma ppr_T_sym_ge0 i j : 0 <= S i j.
Proof. by rewrite mxE mulr_ge0 ?ppr_inverse_ge0 // ltW. Qed.

Lemma ppr_T_sym_diag j : alpha <= S j j.
Proof. by rewrite mxE ler_peMr ?ppr_inverse_diag // ltW. Qed.

Lemma sparsify_diag eps j : eps <= alpha -> sparsify eps S j j = S j j.
Proof.
by move=> le_eps; rewrite sparsifyE (le_trans le_eps) // ppr_T_sym_diag.
Qed.

Lemma sparsify_col_sum_gt0 eps j :
  eps <= alpha -> 0 < col_sum (sparsify eps S) j.
Proof.
move=> le_eps; rewrite /col_sum (bigD1 j) //=; apply: ltr_pwDl.
  by rewrite sparsify_diag // (lt_le_trans alpha_gt0) // ppr_T_sym_diag.
by apply: sumr_ge0 => i _; apply: sparsify_ge0; exact: ppr_T_sym_ge0.
Qed.

End Valid.

End Diffusion.

(** ** The function as a whole *)

Section Pipeline.

Variable R : rcfType.
Variable N : nat.

Implicit Types (A S T : 'M[R]_N) (alpha eps : R).

(** C6, as the code has it. The transition builder tests nothing and never
    raises: on every input, a zero degree included, it returns the product
    of its three factors. *)
Theorem transition_builder_returns A : transition_builder A = Return (T_sym A).
Proof. by []. Qed.

(** On a symmetric matrix the degrees of the specification, sums of rows,
    are the sums of columns the code computes. *)
Lemma degree_D_loop_vec A i : symmetric A -> degree A i = D_loop_vec A 0 i.
Proof.
move=> symA; rewrite /degree /row_sum D_loop_vec_sum; apply: eq_bigr => j _.
by rewrite addrC -/(A_loop A) A_loop_sym.
Qed.

Lemma spec_T_sym A : symmetric A -> nonneg A -> spec_T A = T_sym A.
Proof.
move=> symA A_ge0; rewrite /spec_T /T_sym [A + _]addrC -/(A_loop A).
suff -> : spec_D_invsqrt A = D_loop_invsqrt A by [].
congr diag_mx; apply/rowP=> j; rewrite [LHS]mxE [RHS]mxE degree_D_loop_vec //.
by rewrite sqrtrV ?div1r // ltW // D_loop_vec_gt0.
Qed.

(** C1. On a symmetric non-negative adjacency matrix and [alpha] in (0,1],
    the matrix [I - (1 - alpha) T] of the closed form is invertible, and
    [gdc] returns the closed form [S = alpha (I - (1 - alpha) T)^-1],
    thresholded at [eps] and with each column divided by its sum. *)
Theorem gdc_closed_form A alpha eps :
  symmetric A -> nonneg A -> 0 < alpha <= 1 ->
  1%:M - (1 - alpha) *: spec_T A \in unitmx /\
  gdc A alpha eps = Return (col_normalize (threshold eps (spec_S A alpha))).
Proof.
move=> symA A_ge0 /andP[alpha_gt0 alpha_le1].
rewrite /spec_S spec_T_sym // gdcE ppr_matrix_unit //; split=> //.
by rewrite sparsify_is_threshold renormalize_is_col_normalize.
Qed.

(** C9. On a symmetric non-negative adjacency matrix and [alpha] in (0,1],
    the diffusion matrix has every diagonal entry at least [alpha]; hence a
    threshold [eps <= alpha] leaves a nonzero entry in every column. *)
Theorem ppr_diag_lower_bound A alpha :
  symmetric A -> nonneg A -> 0 < alpha <= 1 ->
  exists2 S, ppr alpha (T_sym A) = Return S &
    (forall j, alpha <= S j j) /\
    (forall eps, eps <= alpha -> forall j, exists i, sparsify eps S i j != 0).
Proof.
move=> _ A_ge0 /andP[alpha_gt0 alpha_le1].
exists (alpha *: invmx (1%:M - (1 - alpha) *: T_sym A)).
  exact: ppr_T_sym.
split=> [j|eps le_eps j]; first exact: ppr_T_sym_diag.
have S_jj := ppr_T_sym_diag A_ge0 alpha_gt0 alpha_le1 j.
exists j; rewrite (sparsify_diag A_ge0 alpha_gt0 alpha_le1 _ le_eps).
by rewrite gt_eqF // (lt_le_trans alpha_gt0).
Qed.

(** C3, as the code has it. On a non-negative adjacency matrix and [alpha]
    in (0,1], [gdc] returns a matrix in which every column that kept a
    nonzero sum after thresholding sums to 1; with [eps <= alpha] that is
    every column. *)
Theorem gdc_column_sums A alpha eps :
  nonneg A -> 0 < alpha <= 1 ->
  exists S TS,
    [/\ ppr alpha (T_sym A) = Return S,
        gdc A alpha eps = Return TS,
        forall j, col_sum (sparsify eps S) j != 0 -> col_sum TS j = 1
      & eps <= alpha -> column_stochastic TS].
Proof.
move=> A_ge0 /andP[alpha_gt0 alpha_le1].
pose S := alpha *: invmx (1%:M - (1 - alpha) *: T_sym A).
exists S, (renormalize (sparsify eps S)); split.
- exact: ppr_T_sym.
- by rewrite gdcE ppr_matrix_unit.
- by move=> j; exact: col_sum_renormalize1.
move=> le_eps j; apply: col_sum_renormalize1.
by rewrite gt_eqF // sparsify_col_sum_gt0.
Qed.

End Pipeline.

(** ** The two-node graph *)

Section TwoNodes.

Let i0 : 'I_2 := ord0.
Let i1 : 'I_2 := lift ord0 ord0.

Lemma ord2_ind (P : 'I_2 -> Prop) : P i0 -> P i1 -> forall i, P i.
Proof.
move=> P0 P1 [[|[|k]] lt_k] //.
  by rewrite (_ : Ordinal lt_k = i0) //; exact: val_inj.
by rewrite (_ : Ordinal lt_k = i1) //; exact: val_inj.
Qed.

Lemma sum_ord2 (F : 'I_2 -> algR) : \sum_i F i = F i0 + F i1.
Proof. by rewrite !big_ord_recl big_ord0 addr0. Qed.

Lemma path2_sym : symmetric path2.
Proof. by apply/matrixP=> i j; rewrite !mxE eq_sym. Qed.

Lemma path2_ge0 : nonneg path2.
Proof. by move=> i j; rewrite mxE ler0n. Qed.

Lemma half_in_range : 0 < (1 / 2 : algR) <= 1.
Proof. lra. Qed.

Lemma path2_A_loop i j : A_loop path2 i j = 1.
Proof. by rewrite A_loopE mxE; case: (i == j); rewrite ?addr0 ?add0r. Qed.

Lemma path2_D_loop_vec j : D_loop_vec path2 0 j = 2.
Proof. by rewrite D_loop_vec_sum sum_ord2 !path2_A_loop. Qed.

Lemma path2_T_sym i j : T_sym path2 i j = 1 / 2.
Proof.
rewrite T_symE path2_A_loop mulr1 ![D_loop_vec_invsqrt _ _ _]mxE.
by rewrite !path2_D_loop_vec !div1r -invfM -expr2 sqr_sqrtr // ler0n.
Qed.

Lemma path2_ppr : ppr (1 / 2) (T_sym path2) = Return path2_S.
Proof.
set M := 1%:M - (1 - 1 / 2) *: T_sym path2.
have MX : M *m (2 *: path2_S) = 1%:M.
  have XE i j : (2 *: path2_S) i j = if i == j then 3 / 2 else 1 / 2.
    by rewrite !mxE; case: ifP => _; lra.
  apply/matrixP=> i j; rewrite mxE sum_ord2 /M !ppr_matrixE !path2_T_sym !XE.
  rewrite [RHS]mxE.
  by elim/ord2_ind: i; elim/ord2_ind: j; rewrite -!val_eqE /=; lra.
have [M_unit _] := mulmx1_unit MX.
rewrite pprE -/M M_unit -[invmx M]mulmx1 -MX mulKmx //.
by congr Return; rewrite scalerA divfK ?scale1r // pnatr_eq0.
Qed.

Lemma threshold_in_range : 0 <= (7 / 8 : algR) < 1.
Proof. lra. Qed.

Lemma path2_sparsify : sparsify (7 / 8) path2_S = 0.
Proof.
apply/matrixP=> i j; rewrite sparsifyE ![in LHS]mxE [RHS]mxE.
have -> : (7 / 8 <= (if i == j then 3 / 4 else 1 / 4 : algR)) = false.
  by apply/negbTE; rewrite -ltNge; case: ifP => _; lra.
by [].
Qed.

Lemma path2_col_sum0 j : col_sum (sparsify (7 / 8) path2_S) j = 0.
Proof. by rewrite path2_sparsify /col_sum sum_ord2 !mxE addr0. Qed.

Lemma path2_gdc :
  gdc path2 (1 / 2) (7 / 8) = Return (renormalize (sparsify (7 / 8) path2_S)).
Proof. by rewrite /gdc /transition_builder /= path2_ppr. Qed.

Lemma neg_edge_degree j : D_loop_vec neg_edge 0 j = 0.
Proof.
rewrite D_loop_vec_sum sum_ord2 !A_loopE ![neg_edge _ _]mxE ![path2 _ _]mxE.
by elim/ord2_ind: j; rewrite -!val_eqE /=; lra.
Qed.

Lemma path2_col_sum_S j : col_sum path2_S j = 1.
Proof.
by rewrite /col_sum sum_ord2 !mxE; elim/ord2_ind: j; rewrite -!val_eqE /=; lra.
Qed.

End TwoNodes.

(** ** The claims on concrete inputs *)

(** C1 on the two-node graph. *)
Lemma gdc_closed_form_path2 :
  [/\ symmetric path2, nonneg path2, 0 < (1 / 2 : algR) <= 1
    & 1%:M - (1 - 1 / 2) *: spec_T path2 \in unitmx /\
      gdc path2 (1 / 2) (7 / 8) =
      Return (col_normalize (threshold (7 / 8) (spec_S path2 (1 / 2))))].
Proof.
split; [exact: path2_sym | exact: path2_ge0 | exact: half_in_range |].
exact: (gdc_closed_form (7 / 8) path2_sym path2_ge0 half_in_range).
Defined.

(** C2 fails on the two-node graph with [alpha = 1/2] and [eps = 7/8]: both
    columns of the sparsified matrix sum to 0 and the diagonal of the result
    is not 1. *)
Lemma renormalize_no_self_loop :
  exists S TS,
    [/\ ppr (1 / 2) (T_sym path2) = Return S,
        gdc path2 (1 / 2) (7 / 8) = Return TS,
        col_sum (sparsify (7 / 8) S) ord0 = 0
      & TS ord0 ord0 != 1].
Proof.
exists path2_S, (renormalize (sparsify (7 / 8) path2_S)).
split; [exact: path2_ppr | exact: path2_gdc | exact: path2_col_sum0 |].
exact: renormalize_zero_diag (path2_col_sum0 _).
Qed.

(** The zero-sum column of the same run. *)
Lemma renormalize_zero_column_path2 :
  col_sum (sparsify (7 / 8) path2_S) ord0 = 0 /\
  [/\ forall i, renormalize (sparsify (7 / 8) path2_S) i ord0 =
                sparsify (7 / 8) path2_S i ord0 /
                col_sum (sparsify (7 / 8) path2_S) ord0,
      renormalize (sparsify (7 / 8) path2_S) ord0 ord0 != 1
    & col_sum (renormalize (sparsify (7 / 8) path2_S)) ord0 != 1].
Proof.
split; first exact: path2_col_sum0.
exact: (renormalize_zero_column (path2_col_sum0 ord0)).
Defined.

(** C3 fails on the same run: the input is valid and the first column of
    the result does not sum to 1. *)
Lemma gdc_not_column_stochastic :
  [/\ symmetric path2, nonneg path2, 0 < (1 / 2 : algR) <= 1,
      0 <= (7 / 8 : algR) < 1
    & exists2 TS, gdc path2 (1 / 2) (7 / 8) = Return TS & col_sum TS ord0 != 1].
Proof.
split; [exact: path2_sym | exact: path2_ge0 | exact: half_in_range
       | exact: threshold_in_range |].
exists (renormalize (sparsify (7 / 8) path2_S)); first exact: path2_gdc.
exact: col_sum_renormalize0 (path2_col_sum0 _).
Qed.

(** C3 as amended, on the two-node graph with [eps = 1/2]. *)
Lemma gdc_column_sums_path2 :
  [/\ nonneg path2, 0 < (1 / 2 : algR) <= 1
    & exists S TS,
        [/\ ppr (1 / 2) (T_sym path2) = Return S,
            gdc path2 (1 / 2) (1 / 2) = Return TS,
            forall j, col_sum (sparsify (1 / 2) S) j != 0 -> col_sum TS j = 1
          & 1 / 2 <= (1 / 2 : algR) -> column_stochastic TS]].
Proof.
split; [exact: path2_ge0 | exact: half_in_range |].
exact: (gdc_column_sums (1 / 2) path2_ge0 half_in_range).
Defined.

(** C5 fails on the two-node graph: with [alpha = 1] the diffusion matrix
    is returned and is not the transition operator. *)
Lemma ppr_alpha1_not_T_sym :
  exists2 S, ppr 1 (T_sym path2) = Return S & S <> T_sym path2.
Proof.
exists 1%:M; first exact: ppr_teleport.
move/matrixP/(_ ord0 (lift ord0 ord0)); rewrite path2_T_sym mxE -val_eqE /=.
by rewrite mulr0n => /eqP; rewrite lt_eqF //; lra.
Qed.

(** C6 fails on two nodes joined by an edge of weight -1: the degree of the
    first node is 0 and the transition builder returns. *)
Lemma transition_builder_zero_degree :
  [/\ D_loop_vec neg_edge 0 ord0 = 0,
      transition_builder neg_edge = Return (T_sym neg_edge)
    & forall e, transition_builder neg_edge <> Raise e].
Proof. by split=> //; exact: neg_edge_degree. Qed.

(** C7 on the two-node graph. *)
Lemma T_sym_symmetric_iff_path2 :
  nonneg path2 /\
  ((symmetric (T_sym path2) <-> symmetric path2) /\
   (forall i, 1 <= A_loop path2 i i)).
Proof. split; [exact: path2_ge0 | exact: (T_sym_symmetric_iff path2_ge0)]. Defined.

(** C8 fails on the sparsified matrix of the two-node graph with
    [alpha = 1/2] and [eps = 7/8]: its first column sums to 0, and after one
    pass of the renormalizer the columns do not all sum to 1. *)
Lemma renormalize_not_column_stochastic :
  col_sum (sparsify (7 / 8) path2_S) ord0 = 0 /\
  ~ column_stochastic (renormalize (sparsify (7 / 8) path2_S)).
Proof.
split; first exact: path2_col_sum0.
move/(_ ord0)/eqP; apply/negP.
exact: col_sum_renormalize0 (path2_col_sum0 _).
Qed.

(** C8 as amended, on twice the diffusion matrix of the two-node graph,
    whose columns sum to 2. *)
Lemma renormalize_idempotent_path2 :
  (forall j, col_sum (2 *: path2_S) j != 0) /\
  (column_stochastic (renormalize (2 *: path2_S)) /\
   renormalize (renormalize (2 *: path2_S)) = renormalize (2 *: path2_S)).
Proof.
have col_neq0 j : col_sum (2 *: path2_S) j != 0.
  rewrite /col_sum; under eq_bigr do rewrite mxE.
  by rewrite -mulr_sumr -/(col_sum path2_S j) path2_col_sum_S mulr1 pnatr_eq0.
split; [exact: col_neq0 | exact: (renormalize_idempotent col_neq0)].
Defined.

(** C9 on the two-node graph. *)
Lemma ppr_diag_lower_bound_path2 :
  [/\ symmetric path2, nonneg path2, 0 < (1 / 2 : algR) <= 1
    & exists2 S, ppr (1 / 2) (T_sym path2) = Return S &
        (forall j, 1 / 2 <= S j j) /\
        (forall eps, eps <= 1 / 2 ->
           forall j, exists i, sparsify eps S i j != 0)].
Proof.
split; [exact: path2_sym | exact: path2_ge0 | exact: half_in_range |].
exact: (ppr_diag_lower_bound path2_sym path2_ge0 half_in_range).
Defined.

(** C10 on the diffusion matrix of the two-node graph. *)
Lemma renormalize_pattern_path2 :
  0 < col_sum path2_S ord0 /\
  forall i,
    [/\ renormalize path2_S i ord0 = path2_S i ord0 / col_sum path2_S ord0,
        (renormalize path2_S i ord0 != 0) = (path2_S i ord0 != 0)
      & forall k, renormalize path2_S i ord0 * path2_S k ord0 =
                  renormalize path2_S k ord0 * path2_S i ord0].
Proof.
have col_gt0 : 0 < col_sum path2_S ord0 by rewrite path2_col_sum_S ltr01.
split; [exact: col_gt0 | exact: (renormalize_pattern col_gt0)].
Defined.

(** ** More on the diffusion matrix *)

Section DiffusionMatrix.

Variable R : rcfType.
Variable N : nat.

Implicit Types (A S T : 'M[R]_N) (alpha eps : R).

Lemma T_sym_sym A : symmetric A -> symmetric (T_sym A).
Proof.
move=> symA; apply/matrixP=> i j; rewrite mxE !T_symE A_loop_sym //; ring.
Qed.

Lemma ppr_sym A alpha S :
  symmetric A -> ppr alpha (T_sym A) = Return S -> symmetric S.
Proof.
move=> symA; rewrite pprE; case: ifP => // M_unit [<-].
rewrite /symmetric linearZ /= trmx_inv linearB /= linearZ /= trmx1.
by rewrite (T_sym_sym symA).
Qed.

(** X5. The diffusion matrix of a symmetric graph is symmetric. *)
Theorem ppr_symmetric A alpha :
  symmetric A -> nonneg A -> 0 < alpha <= 1 ->
  exists2 S, ppr alpha (T_sym A) = Return S & symmetric S.
Proof.
move=> symA A_ge0 /andP[alpha_gt0 alpha_le1].
exists (alpha *: invmx (1%:M - (1 - alpha) *: T_sym A)); first exact: ppr_T_sym.
by apply: (@ppr_sym A alpha) => //; exact: ppr_T_sym.
Qed.

Section SqrtDegree.

Variable A : 'M[R]_N.
Hypothesis A_ge0 : nonneg A.

(** The vector of the square roots of the degrees. *)
Let v : 'rV[R]_N := \row_j Num.sqrt (D_loop_vec A 0 j).

Lemma sqrt_degreeE j : v 0 j = Num.sqrt (D_loop_vec A 0 j).
Proof. by rewrite mxE. Qed.

Lemma D_loop_vec_invsqrtE j :
  D_loop_vec_invsqrt A 0 j = 1 / Num.sqrt (D_loop_vec A 0 j).
Proof. by rewrite [LHS]mxE. Qed.

Lemma sqrt_degree_gt0 j : 0 < v 0 j.
Proof. by rewrite sqrt_degreeE sqrtr_gt0 D_loop_vec_gt0. Qed.

Lemma sqrt_degree_invsqrt j : v 0 j * D_loop_vec_invsqrt A 0 j = 1.
Proof.
have := sqrt_degree_gt0 j; rewrite D_loop_vec_invsqrtE -sqrt_degreeE => v_gt0.
by rewrite div1r divff // lt0r_neq0.
Qed.

Lemma sqrt_degree_sqr j : v 0 j * v 0 j = D_loop_vec A 0 j.
Proof. by rewrite sqrt_degreeE -expr2 sqr_sqrtr // ltW // D_loop_vec_gt0. Qed.

Lemma sqrt_degree_T_sym : v *m T_sym A = v.
Proof.
apply/rowP=> j; rewrite mxE.
under eq_bigr => i _ do
  rewrite T_symE !mulrA sqrt_degree_invsqrt mul1r.
rewrite -mulr_suml -D_loop_vec_sum -sqrt_degree_sqr -mulrA.
by rewrite sqrt_degree_invsqrt mulr1.
Qed.

Lemma sqrt_degree_ppr_matrix alpha :
  v *m (1%:M - (1 - alpha) *: T_sym A) = alpha *: v.
Proof.
rewrite mulmxBr mulmx1 -scalemxAr sqrt_degree_T_sym.
by rewrite -[X in X - _]scale1r -scalerBl opprB addrC subrK.
Qed.

Lemma sqrt_degree_ppr alpha S :
  alpha != 0 -> ppr alpha (T_sym A) = Return S -> v *m S = v.
Proof.
move=> alpha_neq0; rewrite pprE; case: ifP => // M_unit [<-].
rewrite -scalemxAr -[X in X *m _](scalerK alpha_neq0) -sqrt_degree_ppr_matrix.
by rewrite -scalemxAl mulmxK // scalerA divff // scale1r.
Qed.

Lemma sqrt_degree_ppr_sum alpha S j :
  alpha != 0 -> ppr alpha (T_sym A) = Return S ->
  \sum_i Num.sqrt (D_loop_vec A 0 i) * S i j = Num.sqrt (D_loop_vec A 0 j).
Proof.
move=> alpha_neq0 pprS; have /rowP/(_ j) := sqrt_degree_ppr alpha_neq0 pprS.
rewrite mxE sqrt_degreeE => <-; apply: eq_bigr => i _.
by rewrite sqrt_degreeE.
Qed.

End SqrtDegree.

Section Entries.

Variables (A : 'M[R]_N) (alpha : R).
Hypothesis A_ge0 : nonneg A.
Hypothesis alpha_gt0 : 0 < alpha.
Hypothesis alpha_le1 : alpha <= 1.

Let M : 'M[R]_N := 1%:M - (1 - alpha) *: T_sym A.
Let S : 'M[R]_N := alpha *: invmx M.

(** The inverse solves [X = I + (1 - alpha) T X]. *)
Lemma ppr_inverse_fixpoint i j :
  invmx M i j =
  (i == j)%:R + (1 - alpha) * \sum_k T_sym A i k * invmx M k j.
Proof.
have : (M *m invmx M) i j = (i == j)%:R.
  by rewrite mulmxV ?ppr_matrix_unit // mxE.
rewrite mxE; under eq_bigr do rewrite ppr_matrixE mulrBl.
rewrite sumrB (bigD1 i) //= eqxx mul1r big1 ?addr0.
  by move=> k /negPf ki; rewrite eq_sym ki mul0r.
move/eqP; rewrite subr_eq => /eqP ->; congr (_ + _).
by rewrite mulr_sumr; apply: eq_bigr => k _; rewrite mulrA.
Qed.

Lemma ppr_edge_bound i j : alpha * (1 - alpha) * T_sym A i j <= S i j.
Proof.
rewrite [S i j]mxE -mulrA ler_pM2l // ppr_inverse_fixpoint.
apply: le_trans (_ : (1 - alpha) * \sum_k T_sym A i k * invmx M k j <= _);
  last by rewrite lerDr ler0n.
rewrite ler_wpM2l ?subr_ge0 // (bigD1 j) //=.
apply: le_trans (_ : T_sym A i j * invmx M j j <= _).
  by rewrite ler_peMr ?T_sym_ge0 // ppr_inverse_diag.
rewrite lerDl; apply: sumr_ge0 => k _.
by rewrite mulr_ge0 ?T_sym_ge0 ?ppr_inverse_ge0.
Qed.

Lemma ppr_weighted_bound i j :
  Num.sqrt (D_loop_vec A 0 i) * S i j <= Num.sqrt (D_loop_vec A 0 j).
Proof.
rewrite -(sqrt_degree_ppr_sum A_ge0 j (lt0r_neq0 alpha_gt0)
           (ppr_T_sym A_ge0 alpha_gt0 alpha_le1)).
rewrite [leRHS](bigD1 i) //= lerDl; apply: sumr_ge0 => k _.
by rewrite mulr_ge0 ?sqrtr_ge0 // ppr_T_sym_ge0.
Qed.

End Entries.

(** X8. The diffusion keeps the vector of the square roots of the degrees: the
    columns of [S], weighted by it, sum to its entries. *)
Theorem ppr_sqrt_degree_invariant A alpha :
  nonneg A -> 0 < alpha <= 1 ->
  exists2 S, ppr alpha (T_sym A) = Return S &
    forall j, \sum_i Num.sqrt (D_loop_vec A 0 i) * S i j =
              Num.sqrt (D_loop_vec A 0 j).
Proof.
move=> A_ge0 /andP[alpha_gt0 alpha_le1].
have pprS := ppr_T_sym A_ge0 alpha_gt0 alpha_le1.
eexists; first exact: pprS.
by move=> j; apply: sqrt_degree_ppr_sum pprS => //; rewrite lt0r_neq0.
Qed.

(** X6. Every entry of the diffusion matrix is non-negative and at most the
    ratio of the square roots of the two degrees; the diagonal is at most 1. *)
Theorem ppr_entry_bounds A alpha :
  nonneg A -> 0 < alpha <= 1 ->
  exists2 S, ppr alpha (T_sym A) = Return S &
    (forall i j, 0 <= S i j <=
       Num.sqrt (D_loop_vec A 0 j) / Num.sqrt (D_loop_vec A 0 i)) /\
    (forall j, S j j <= 1).
Proof.
move=> A_ge0 /andP[alpha_gt0 alpha_le1].
have pprS := ppr_T_sym A_ge0 alpha_gt0 alpha_le1.
have sqrt_gt0 i : 0 < Num.sqrt (D_loop_vec A 0 i).
  by rewrite sqrtr_gt0 D_loop_vec_gt0.
have bound i j := ppr_weighted_bound A_ge0 alpha_gt0 alpha_le1 i j.
eexists; first exact: pprS.
split=> [i j|j].
  by rewrite ppr_T_sym_ge0 //= ler_pdivlMr // mulrC.
by have := bound j j; rewrite -[leRHS]mulr1 ler_pM2l.
Qed.

(** X7. Diffusion keeps the edges: the weight between two nodes is at least
    [alpha (1 - alpha)] times their transition weight, hence positive on
    every edge of the graph when [alpha < 1]. *)
Theorem ppr_edge_lower_bound A alpha :
  nonneg A -> 0 < alpha <= 1 ->
  exists2 S, ppr alpha (T_sym A) = Return S &
    (forall i j, alpha * (1 - alpha) * T_sym A i j <= S i j) /\
    (alpha < 1 -> forall i j, 0 < A i j -> 0 < S i j).
Proof.
move=> A_ge0 /andP[alpha_gt0 alpha_le1].
have bound := ppr_edge_bound A_ge0 alpha_gt0 alpha_le1.
eexists; first exact: ppr_T_sym.
split=> // alpha_lt1 i j Aij_gt0; apply: lt_le_trans (bound i j).
rewrite !mulr_gt0 ?subr_gt0 // T_symE !mulr_gt0 ?D_loop_vec_invsqrt_gt0 //.
by rewrite A_loopE ltr_wpDl ?ler0n.
Qed.

End DiffusionMatrix.

(** ** More on thresholding and renormalizing *)

Section Output.

Variable R : rcfType.
Variable N : nat.

Implicit Types (A S T : 'M[R]_N) (alpha eps c : R).

Lemma entry_le_col_sum S i j : (forall k, 0 <= S k j) -> S i j <= col_sum S j.
Proof.
by move=> S_ge0; rewrite /col_sum (bigD1 i) //= lerDl sumr_ge0.
Qed.

Lemma col_sum_scale c S j : col_sum (c *: S) j = c * col_sum S j.
Proof.
by rewrite /col_sum mulr_sumr; apply: eq_bigr => i _; rewrite mxE.
Qed.

Lemma sparsify_scale c eps S :
  0 < c -> sparsify eps (c *: S) = c *: sparsify (eps / c) S.
Proof.
move=> c_gt0; apply/matrixP=> i j; rewrite sparsifyE [in RHS]mxE sparsifyE.
by rewrite [(c *: S) i j]mxE ler_pdivrMr // [S i j * c]mulrC; case: ifP; rewrite ?mulr0.
Qed.

Lemma renormalize_scale c S : c != 0 -> renormalize (c *: S) = renormalize S.
Proof.
move=> c_neq0; apply/matrixP=> i j; rewrite !renormalizeE col_sum_scale mxE.
by rewrite -mulf_div divff // mul1r.
Qed.

Lemma sparsify_comp eps1 eps2 S :
  eps1 <= eps2 -> sparsify eps2 (sparsify eps1 S) = sparsify eps2 S.
Proof.
move=> le12; apply/matrixP=> i j; rewrite !sparsifyE.
case: (leP eps1 (S i j)) => // lt1.
have /negPf -> : ~~ (eps2 <= S i j) by rewrite -ltNge (lt_le_trans lt1).
by case: ifP.
Qed.

(** X9. Thresholding twice is thresholding once at the larger threshold; in
    particular thresholding is idempotent. *)
Theorem sparsify_twice eps1 eps2 S :
  eps1 <= eps2 -> sparsify eps2 (sparsify eps1 S) = sparsify eps2 S.
Proof. exact: sparsify_comp. Qed.

(** X10. Renormalizing forgets a common nonzero factor of the entries. *)
Theorem renormalize_scale_invariant c S :
  c != 0 -> renormalize (c *: S) = renormalize S.
Proof. exact: renormalize_scale. Qed.

(** X4. The factor [alpha] of the closed form acts on the result only through
    the threshold: [gdc] returns the renormalized inverse thresholded at
    [eps / alpha]. *)
Theorem gdc_alpha_threshold A alpha eps :
  0 < alpha ->
  gdc A alpha eps =
  (X <- inv (1%:M - (1 - alpha) *: T_sym A) ;;
   Return (renormalize (sparsify (eps / alpha) X))).
Proof.
move=> alpha_gt0; rewrite gdcE /inv; case: ifP => //= _.
by rewrite sparsify_scale // renormalize_scale // lt0r_neq0.
Qed.

(** X1. With [eps <= alpha] every entry of the result lies between 0 and 1. *)
Theorem gdc_entries_unit_interval A alpha eps :
  nonneg A -> 0 < alpha <= 1 -> eps <= alpha ->
  exists2 TS, gdc A alpha eps = Return TS & forall i j, 0 <= TS i j <= 1.
Proof.
move=> A_ge0 /andP[alpha_gt0 alpha_le1] le_eps.
pose S := alpha *: invmx (1%:M - (1 - alpha) *: T_sym A).
have St_ge0 : forall i j, 0 <= sparsify eps S i j.
  by apply: sparsify_ge0; exact: ppr_T_sym_ge0.
have c_gt0 j := sparsify_col_sum_gt0 A_ge0 alpha_gt0 alpha_le1 j le_eps.
exists (renormalize (sparsify eps S)); first by rewrite gdcE ppr_matrix_unit.
move=> i j; rewrite renormalizeE divr_ge0 ?St_ge0 ?(ltW (c_gt0 j)) //=.
by rewrite ler_pdivrMr ?c_gt0 // mul1r entry_le_col_sum.
Qed.

Section Isolated.

Variables (A : 'M[R]_N) (alpha : R) (j : 'I_N).
Hypothesis A_ge0 : nonneg A.
Hypothesis alpha_gt0 : 0 < alpha.
Hypothesis alpha_le1 : alpha <= 1.
Hypothesis no_in_edge : forall k, k != j -> A k j = 0.

Let M : 'M[R]_N := 1%:M - (1 - alpha) *: T_sym A.
Let S : 'M[R]_N := alpha *: invmx M.

Lemma isolated_ppr_matrix k : M k j = alpha * (k == j)%:R.
Proof.
rewrite ppr_matrixE T_symE A_loopE.
have [->|k_neq_j] := eqVneq k j; last first.
  by rewrite no_in_edge // addr0 mulr0 mul0r !mulr0 subr0.
have -> : 1 + A j j = D_loop_vec A 0 j.
  by rewrite D_loop_vecE /col_sum (bigD1 j) //= big1 ?addr0.
by rewrite mulrAC D_loop_vec_invsqrt_sqr // !mulr1 opprB addrC subrK.
Qed.

Lemma isolated_ppr i : S i j = (i == j)%:R.
Proof.
have : (invmx M *m M) i j = (i == j)%:R.
  by rewrite mulVmx ?ppr_matrix_unit // mxE.
rewrite mxE (bigD1 j) //= big1 ?addr0.
  by move=> k k_neq_j; rewrite isolated_ppr_matrix (negPf k_neq_j) !mulr0.
by rewrite isolated_ppr_matrix eqxx mulr1 mulrC [S i j]mxE.
Qed.

Lemma isolated_sparsify eps i : eps <= 1 -> sparsify eps S i j = (i == j)%:R.
Proof.
move=> le_eps; rewrite sparsifyE isolated_ppr.
by case: (i == j); rewrite ?le_eps //; case: ifP.
Qed.

Lemma isolated_gdc eps i :
  eps <= 1 -> renormalize (sparsify eps S) i j = (i == j)%:R.
Proof.
move=> le_eps; rewrite renormalizeE isolated_sparsify //.
rewrite /col_sum (bigD1 j) //= big1 ?addr0 ?isolated_sparsify ?eqxx ?divr1 //.
by move=> k /negPf k_neq_j; rewrite isolated_sparsify // k_neq_j.
Qed.

End Isolated.

(** X2. A node without incoming edges keeps to itself: its column of the
    diffusion matrix is the unit column, and for [eps <= 1] so is its column
    of the result, a pure self-loop. *)
Theorem gdc_isolated_node A alpha eps (j : 'I_N) :
  nonneg A -> 0 < alpha <= 1 -> (forall k, k != j -> A k j = 0) ->
  exists S TS,
    [/\ ppr alpha (T_sym A) = Return S,
        gdc A alpha eps = Return TS,
        forall i, S i j = (i == j)%:R
      & eps <= 1 -> forall i, TS i j = (i == j)%:R].
Proof.
move=> A_ge0 /andP[alpha_gt0 alpha_le1] no_in_edge.
pose S := alpha *: invmx (1%:M - (1 - alpha) *: T_sym A).
exists S, (renormalize (sparsify eps S)); split.
- exact: ppr_T_sym.
- by rewrite gdcE ppr_matrix_unit.
- by move=> i; exact: isolated_ppr.
by move=> le_eps i; exact: isolated_gdc.
Qed.

End Output.

(** ** Evaluation *)

Section Evaluation.

Variable logit_row : Type.
Variable row_argmax : logit_row -> nat.

Implicit Types (logits : seq logit_row) (labels : seq nat) (m : bitseq).
Implicit Types (data : Data) (test : bool).

Lemma size_mask_le (T : Type) m (s : seq T) : (size (mask m s) <= count id m)%N.
Proof.
elim: m s => [|b m IHm] [|x s] //=.
by case: b => /=; rewrite ?add1n ?add0n ?ltnS; exact: IHm.
Qed.

Lemma accuracyE logits labels m :
  accuracy row_argmax logits labels m =
  if has id m then
    Some ((count (fun pl => pl.1 == pl.2)
             (zip [seq row_argmax r | r <- mask m logits] (mask m labels)))%:R
          / (count id m)%:R)
  else None.
Proof. by rewrite /accuracy has_count lt0n; case: (count id m == 0%N). Qed.

Lemma hits_le logits labels m :
  (count (fun pl => pl.1 == pl.2)
     (zip [seq row_argmax r | r <- mask m logits] (mask m labels))
   <= count id m)%N.
Proof.
apply: leq_trans (count_size _ _) _; rewrite size_zip size_map.
by rewrite (leq_trans (geq_minl _ _)) // size_mask_le.
Qed.

Lemma accuracy_range logits labels m a :
  accuracy row_argmax logits labels m = Some a -> 0 <= a <= 1.
Proof.
rewrite accuracyE has_count; case: ifP => // total_gt0 [<-].
by rewrite divr_ge0 ?ler0n //= ler_pdivrMr ?ltr0n // mul1r ler_nat hits_le.
Qed.

Lemma hits_all logits labels m :
  size logits = size m -> size labels = size m ->
  (count (fun pl => pl.1 == pl.2)
     (zip [seq row_argmax r | r <- mask m logits] (mask m labels))
   == count id m) =
  all (fun x => x.1 ==> (row_argmax x.2.1 == x.2.2)) (zip m (zip logits labels)).
Proof.
elim: m logits labels => [|b m IHm] [|r logits] [|l labels] //= [sz1] [sz2].
case: b => /=; last by rewrite add0n IHm.
case: (row_argmax r == l) => /=; first by rewrite !add1n eqSS IHm.
by rewrite add0n add1n ltn_eqF // ltnS hits_le.
Qed.

Lemma accuracy_one logits labels m :
  size logits = size m -> size labels = size m -> has id m ->
  (accuracy row_argmax logits labels m == Some 1) =
  all (fun x => x.1 ==> (row_argmax x.2.1 == x.2.2)) (zip m (zip logits labels)).
Proof.
move=> sz1 sz2 has_m; rewrite accuracyE has_m -hits_all //.
have total_neq0 : (count id m)%:R != 0 :> rat.
  by rewrite pnatr_eq0 -lt0n -has_count.
rewrite (inj_eq Some_inj) -[RHS](eqr_nat rat).
by rewrite -[LHS](inj_eq (mulIf total_neq0)) divfK // mul1r.
Qed.

Lemma evaluate_isSome logits data test :
  isSome (evaluate row_argmax logits data test) =
  has id (val_mask data) && (test ==> has id (test_mask data)).
Proof.
rewrite /evaluate !accuracyE.
by case: (has id (val_mask data)); case: test; case: (has id (test_mask data)).
Qed.

Lemma evaluate_range logits data test ev :
  evaluate row_argmax logits data test = Some ev ->
  [/\ 0 <= val_acc ev <= 1, isSome (test_acc ev) = test
    & forall t, test_acc ev = Some t -> 0 <= t <= 1].
Proof.
rewrite /evaluate.
case val_eq: (accuracy _ _ _ (val_mask data)) => [v|] //.
have v_range := accuracy_range val_eq.
case: test; last by case=> <-; split.
case test_eq: (accuracy _ _ _ (test_mask data)) => [t|] // [<-].
by split=> //= t' [<-]; exact: accuracy_range test_eq.
Qed.

(** X11. [evaluate] returns exactly when the validation mask, and with [test] set
    the test mask too, selects a node; on an empty mask the quotient of the
    two counts is a division by zero. *)
Theorem evaluate_returns logits data test :
  isSome (evaluate row_argmax logits data test) =
  has id (val_mask data) && (test ==> has id (test_mask data)).
Proof. exact: evaluate_isSome. Qed.

(** X12. The accuracies [evaluate] returns lie between 0 and 1, and the
    dictionary has a test accuracy exactly when [test] is set. *)
Theorem evaluate_accuracies logits data test ev :
  evaluate row_argmax logits data test = Some ev ->
  [/\ 0 <= val_acc ev <= 1, isSome (test_acc ev) = test
    & forall t, test_acc ev = Some t -> 0 <= t <= 1].
Proof. exact: evaluate_range. Qed.

(** X13. On masks and labels with one entry per node, the accuracy is 1 exactly
    when every node the mask selects is classified as labelled. *)
Theorem accuracy_perfect logits labels m :
  size logits = size m -> size labels = size m -> has id m ->
  (accuracy row_argmax logits labels m == Some 1) =
  all (fun x => x.1 ==> (row_argmax x.2.1 == x.2.2)) (zip m (zip logits labels)).
Proof. exact: accuracy_one. Qed.

End Evaluation.

(** ** The loop over the epochs *)

Section EpochLoop.

Variable logit_row : Type.
Variable row_argmax : logit_row -> nat.
Variable model : Type.
Variable train : model -> model.
Variable forward : model -> seq logit_row.
Variable data : Data.
Variable test : bool.
Variables max_epochs patience : nat.
Variable m0 : model.

(** The evaluation after [e] training steps, that of epoch [e]. *)
Let acc_at (e : nat) : option eval_dict :=
  evaluate row_argmax (forward (iter e train m0)) data test.

Let loop := epoch_loop row_argmax train forward data test patience.

Section Returns.

Hypothesis val_ok : has id (val_mask data).
Hypothesis test_ok : test ==> has id (test_mask data).

Lemma acc_at_some e : exists ev, acc_at e = Some ev.
Proof.
have := evaluate_isSome row_argmax (forward (iter e train m0)) data test.
by rewrite val_ok test_ok /= -/(acc_at e); case: (acc_at e) => // ev _; exists ev.
Qed.

(** What the loop keeps true, after [k] epochs. *)
Let inv (k pc : nat) (tmp : tmp_dict) : Prop :=
  [/\ (pc <= patience)%N,
      forall e', (0 < e' <= k)%N ->
        exists2 ev, acc_at e' = Some ev & val_acc ev <= tmp_val_acc tmp
    & match tmp_epoch tmp with
      | Some e =>
        [/\ (0 < e)%N, (e + pc)%N = k,
            exists2 ev, acc_at e = Some ev &
              tmp_val_acc tmp = val_acc ev /\ tmp_test_acc tmp = test_acc ev
          & forall e', (e < e' <= k)%N ->
              exists2 ev, acc_at e' = Some ev & val_acc ev < tmp_val_acc tmp]
      | None => [/\ k = 0%N, pc = 0%N & tmp = tmp_dict0]
      end].

Lemma inv0 : inv 0 0 tmp_dict0.
Proof. by split=> // e'; rewrite leqn0; case: e'. Qed.

Lemma inv_worse k pc tmp ev :
  inv k pc tmp -> pc != patience -> acc_at k.+1 = Some ev ->
  val_acc ev < tmp_val_acc tmp -> inv k.+1 pc.+1 tmp.
Proof.
move=> [pc_le below best] pc_neq ev_eq ev_lt; split.
- by rewrite ltn_neqAle pc_neq.
- move=> e' /andP[e'_gt0]; rewrite leq_eqVlt ltnS => /orP[/eqP ->|e'_le].
    by exists ev => //; exact: ltW.
  by apply: below; rewrite e'_gt0.
case: (tmp_epoch tmp) best => [e|] [].
  move=> e_gt0 e_pc best_e later; split=> //; first by rewrite addnS e_pc.
  move=> e' /andP[e_lt]; rewrite leq_eqVlt ltnS => /orP[/eqP ->|e'_le].
    by exists ev.
  by apply: later; rewrite e_lt.
move=> _ _ tmp_eq; move: ev_lt; rewrite tmp_eq /= ltNge.
by have [/andP[-> _] _ _] := evaluate_range ev_eq.
Qed.

Lemma inv_test_acc k pc tmp :
  inv k pc tmp -> ~~ test -> tmp_test_acc tmp = None.
Proof.
move=> [_ _]; case: (tmp_epoch tmp) => [e|] []; last by move=> _ _ ->.
move=> _ _ [ev ev_eq [_ ->]] _ test_off.
have [_ some_test _] := evaluate_range ev_eq.
by case: (test_acc ev) some_test test_off => // t <-.
Qed.

Lemma inv_better k pc tmp ev :
  inv k pc tmp -> acc_at k.+1 = Some ev ->
  ~~ (val_acc ev < tmp_val_acc tmp) -> inv k.+1 0 (record_epoch tmp k.+1 ev).
Proof.
move=> inv_k ev_eq; rewrite -leNgt => ev_ge.
have [_ below _] := inv_k; split=> //=.
- move=> e' /andP[e'_gt0]; rewrite leq_eqVlt ltnS => /orP[/eqP ->|e'_le].
    by exists ev.
  have [ev' ev'_eq ev'_le] := below e' (introT andP (conj e'_gt0 e'_le)).
  by exists ev' => //; exact: le_trans ev'_le ev_ge.
split=> //; first by rewrite addn0.
  exists ev => //; split=> //.
  have [_ some_test _] := evaluate_range ev_eq.
  case: (test_acc ev) some_test => // test_off.
  by apply: inv_test_acc inv_k _; rewrite -test_off.
by move=> e' /andP[]; rewrite ltnNge => /negPf ->.
Qed.

Lemma epoch_loop_inv n k pc tmp :
  inv k pc tmp ->
  exists m' tmp' k' pc',
    [/\ loop (iota k.+1 n) (iter k train m0) pc tmp = Some (m', tmp'),
        (k <= k' <= k + n)%N, m' = iter k' train m0, inv k' pc' tmp'
      & (pc' == patience) || (k' == k + n)%N].
Proof.
elim: n k pc tmp => [|n IHn] k pc tmp inv_k.
  exists (iter k train m0), tmp, k, pc.
  by rewrite addn0 leqnn eqxx orbT.
case pc_eq: (pc == patience).
  exists (iter k train m0), tmp, k, pc.
  by split; rewrite /loop /= ?pc_eq ?leqnn ?leq_addr.
have pc_neq := negbT pc_eq.
have [ev ev_eq] := acc_at_some k.+1.
have step : loop (iota k.+1 n.+1) (iter k train m0) pc tmp =
    if val_acc ev < tmp_val_acc tmp
    then loop (iota k.+2 n) (iter k.+1 train m0) pc.+1 tmp
    else loop (iota k.+2 n) (iter k.+1 train m0) 0 (record_epoch tmp k.+1 ev).
  by rewrite /= (negPf pc_neq) -iterS -/(acc_at k.+1) ev_eq.
have [m' [tmp' [k' [pc' [loop_eq /andP[k_le k'_le] m'_eq inv_k' stop]]]]] :
  exists m' tmp' k' pc',
    [/\ loop (iota k.+1 n.+1) (iter k train m0) pc tmp = Some (m', tmp'),
        (k.+1 <= k' <= k.+1 + n)%N, m' = iter k' train m0, inv k' pc' tmp'
      & (pc' == patience) || (k' == k.+1 + n)%N].
  rewrite step; case: ifP => [ev_lt|/negbT ev_ge]; apply: IHn.
    exact: inv_worse inv_k pc_neq ev_eq ev_lt.
  exact: inv_better inv_k ev_eq ev_ge.
exists m', tmp', k', pc'; split=> //.
  by rewrite (ltnW k_le) -addSnnS.
by rewrite -addSnnS.
Qed.

Hypothesis patience_gt0 : (0 < patience)%N.
Hypothesis max_epochs_gt0 : (0 < max_epochs)%N.

Lemma run_seed_spec :
  exists m' tmp' e ev,
    [/\ run_seed row_argmax train forward data test max_epochs patience m0
          = Some (m', tmp'),
        tmp_epoch tmp' = Some e /\ (0 < e <= max_epochs)%N,
        acc_at e = Some ev /\
        (tmp_val_acc tmp' = val_acc ev /\ tmp_test_acc tmp' = test_acc ev),
        m' = iter (minn max_epochs (e + patience)) train m0
      & forall e', (0 < e' <= minn max_epochs (e + patience))%N ->
          exists2 ev', acc_at e' = Some ev' &
            val_acc ev' <= tmp_val_acc tmp' /\
            ((e < e')%N -> val_acc ev' < tmp_val_acc tmp')].
Proof.
have [m' [tmp' [k' [pc' []]]]] := epoch_loop_inv max_epochs inv0.
rewrite add0n /= -/(run_seed _ _ _ _ _ _ _ _) => run_eq k'_le m'_eq.
case=> pc'_le below; case tmp'_eq: (tmp_epoch tmp') => [e|] []; last first.
  move=> k'0 pc'0 _; rewrite pc'0 k'0 eq_sym (gtn_eqF patience_gt0).
  by rewrite eq_sym (gtn_eqF max_epochs_gt0).
move=> e_gt0 e_pc' [ev ev_eq [val_eq test_eq]] later stop.
have e_le : (e <= k')%N by rewrite -e_pc' leq_addr.
have k'_eq : k' = minn max_epochs (e + patience).
  case/orP: stop => /eqP stop_eq.
    by rewrite -e_pc' stop_eq; apply/esym/minn_idPr; rewrite -stop_eq e_pc'.
  by rewrite stop_eq; apply/esym/minn_idPl; rewrite -stop_eq -e_pc' leq_add2l.
exists m', tmp', e, ev; split=> //.
- by split=> //; rewrite e_gt0 (leq_trans e_le).
- by rewrite -k'_eq.
rewrite -k'_eq => e' e'_range; have [ev' ev'_eq ev'_le] := below e' e'_range.
exists ev' => //; split=> // e_lt.
have [ev'' ] := later e' (introT andP (conj e_lt (proj2 (andP e'_range)))).
by rewrite ev'_eq => -[<-].
Qed.

(** X14. Model selection. On well-shaped data, when the masks select nodes
    and [patience] and [max_epochs] are positive, the loop returns, an epoch
    is recorded, and the accuracies kept in [tmp_dict] are those [evaluate]
    gave at that epoch: the test accuracy is the one at the recorded epoch. *)
Theorem run_seed_selection :
  well_shaped forward data ->
  exists m' tmp' e ev,
    [/\ run_seed row_argmax train forward data test max_epochs patience m0
          = Some (m', tmp'),
        tmp_epoch tmp' = Some e,
        (0 < e <= max_epochs)%N,
        evaluate row_argmax (forward (iter e train m0)) data test = Some ev
      & tmp_val_acc tmp' = val_acc ev /\ tmp_test_acc tmp' = test_acc ev].
Proof.
move=> _.
have [m' [tmp' [e [ev [run_eq [e_eq e_range] [ev_eq accs] _ _]]]]] := run_seed_spec.
by exists m', tmp', e, ev.
Qed.

(** X15. On well-shaped data the recorded epoch is the last best one: no
    epoch that was run has a greater validation accuracy, and every epoch
    run after it has a smaller one. *)
Theorem run_seed_best :
  well_shaped forward data ->
  exists m' tmp' e,
    [/\ run_seed row_argmax train forward data test max_epochs patience m0
          = Some (m', tmp'),
        tmp_epoch tmp' = Some e
      & forall e', (0 < e' <= minn max_epochs (e + patience))%N ->
          exists2 ev',
            evaluate row_argmax (forward (iter e' train m0)) data test
              = Some ev' &
            val_acc ev' <= tmp_val_acc tmp' /\
            ((e < e')%N -> val_acc ev' < tmp_val_acc tmp')].
Proof.
move=> _.
have [m' [tmp' [e [ev [run_eq [e_eq _] _ _ best]]]]] := run_seed_spec.
by exists m', tmp', e.
Qed.

(** X16. Early stopping. On well-shaped data the network is trained for
    [patience] epochs beyond the recorded one, or up to [max_epochs] if that
    comes first, and no further. *)
Theorem run_seed_stop :
  well_shaped forward data ->
  exists m' tmp' e,
    [/\ run_seed row_argmax train forward data test max_epochs patience m0
          = Some (m', tmp'),
        tmp_epoch tmp' = Some e
      & m' = iter (minn max_epochs (e + patience)) train m0].
Proof.
move=> _.
have [m' [tmp' [e [ev [run_eq [e_eq _] _ m'_eq _]]]]] := run_seed_spec.
by exists m', tmp', e.
Qed.

End Returns.

(** X17. With [patience = 0] or [max_epochs = 0] nothing is trained or
    evaluated, whatever the masks: the network is returned as it came and
    [tmp_dict] has its initial accuracy 0 and no epoch. *)
Theorem run_seed_nothing :
  (patience == 0%N) || (max_epochs == 0%N) ->
  run_seed row_argmax train forward data test max_epochs patience m0
    = Some (m0, tmp_dict0).
Proof.
rewrite /run_seed; case: max_epochs => [|n] //=.
by rewrite orbF eq_sym => ->.
Qed.


End EpochLoop.

(** ** The further properties on concrete inputs *)

(** X5 on the two-node graph. *)
Lemma ppr_symmetric_path2 :
  [/\ symmetric path2, nonneg path2, 0 < (1 / 2 : algR) <= 1
    & exists2 S, ppr (1 / 2) (T_sym path2) = Return S & symmetric S].
Proof.
split; [exact: path2_sym | exact: path2_ge0 | exact: half_in_range |].
exact: (ppr_symmetric path2_sym path2_ge0 half_in_range).
Defined.

(** X8 on the two-node graph. *)
Lemma ppr_sqrt_degree_invariant_path2 :
  [/\ nonneg path2, 0 < (1 / 2 : algR) <= 1
    & exists2 S, ppr (1 / 2) (T_sym path2) = Return S &
        forall j, \sum_i Num.sqrt (D_loop_vec path2 0 i) * S i j =
                  Num.sqrt (D_loop_vec path2 0 j)].
Proof.
split; [exact: path2_ge0 | exact: half_in_range |].
exact: (ppr_sqrt_degree_invariant path2_ge0 half_in_range).
Defined.

(** X6 on the two-node graph. *)
Lemma ppr_entry_bounds_path2 :
  [/\ nonneg path2, 0 < (1 / 2 : algR) <= 1
    & exists2 S, ppr (1 / 2) (T_sym path2) = Return S &
        (forall i j, 0 <= S i j <=
           Num.sqrt (D_loop_vec path2 0 j) / Num.sqrt (D_loop_vec path2 0 i)) /\
        (forall j, S j j <= 1)].
Proof.
split; [exact: path2_ge0 | exact: half_in_range |].
exact: (ppr_entry_bounds path2_ge0 half_in_range).
Defined.

(** X7 on the two-node graph. *)
Lemma ppr_edge_lower_bound_path2 :
  [/\ nonneg path2, 0 < (1 / 2 : algR) <= 1
    & exists2 S, ppr (1 / 2) (T_sym path2) = Return S &
        (forall i j, 1 / 2 * (1 - 1 / 2) * T_sym path2 i j <= S i j) /\
        (1 / 2 < (1 : algR) -> forall i j, 0 < path2 i j -> 0 < S i j)].
Proof.
split; [exact: path2_ge0 | exact: half_in_range |].
exact: (ppr_edge_lower_bound path2_ge0 half_in_range).
Defined.

Lemma quarter_le_threshold : (1 / 4 : algR) <= 7 / 8.
Proof. lra. Qed.

(** X9 on the diffusion matrix of the two-node graph. *)
Lemma sparsify_twice_path2 :
  (1 / 4 : algR) <= 7 / 8 /\
  sparsify (7 / 8) (sparsify (1 / 4) path2_S) = sparsify (7 / 8) path2_S.
Proof.
split; [exact: quarter_le_threshold | exact: (sparsify_twice _ quarter_le_threshold)].
Defined.

Lemma two_neq0 : (2 : algR) != 0.
Proof. by rewrite pnatr_eq0. Qed.

(** X10 on the diffusion matrix of the two-node graph. *)
Lemma renormalize_scale_invariant_path2 :
  (2 : algR) != 0 /\ renormalize (2 *: path2_S) = renormalize path2_S.
Proof. split; [exact: two_neq0 | exact: (renormalize_scale_invariant _ two_neq0)]. Defined.

Lemma half_gt0 : 0 < (1 / 2 : algR).
Proof. lra. Qed.

(** X4 on the two-node graph. *)
Lemma gdc_alpha_threshold_path2 :
  0 < (1 / 2 : algR) /\
  gdc path2 (1 / 2) (7 / 8) =
  (X <- inv (1%:M - (1 - 1 / 2) *: T_sym path2) ;;
   Return (renormalize (sparsify (7 / 8 / (1 / 2)) X))).
Proof. split; [exact: half_gt0 | exact: (gdc_alpha_threshold path2 _ half_gt0)]. Defined.

Lemma quarter_le_half : (1 / 4 : algR) <= 1 / 2.
Proof. lra. Qed.

(** X1 on the two-node graph. *)
Lemma gdc_entries_unit_interval_path2 :
  [/\ nonneg path2, 0 < (1 / 2 : algR) <= 1, (1 / 4 : algR) <= 1 / 2
    & exists2 TS, gdc path2 (1 / 2) (1 / 4) = Return TS &
        forall i j, 0 <= TS i j <= 1].
Proof.
split; [exact: path2_ge0 | exact: half_in_range | exact: quarter_le_half |].
exact: (gdc_entries_unit_interval path2_ge0 half_in_range quarter_le_half).
Defined.

Lemma edgeless_ge0 : nonneg (0 : 'M[algR]_2).
Proof. by move=> i j; rewrite mxE. Qed.

Lemma edgeless_column (j k : 'I_2) : k != j -> (0 : 'M[algR]_2) k j = 0.
Proof. by rewrite mxE. Qed.

(** X2 on two nodes without an edge. *)
Lemma gdc_isolated_node_edgeless :
  [/\ nonneg (0 : 'M[algR]_2), 0 < (1 / 2 : algR) <= 1,
      forall k, k != ord0 -> (0 : 'M[algR]_2) k ord0 = 0
    & exists S TS,
        [/\ ppr (1 / 2) (T_sym (0 : 'M[algR]_2)) = Return S,
            gdc (0 : 'M[algR]_2) (1 / 2) (7 / 8) = Return TS,
            forall i, S i ord0 = (i == ord0)%:R
          & 7 / 8 <= (1 : algR) -> forall i, TS i ord0 = (i == ord0)%:R]].
Proof.
split; [exact: edgeless_ge0 | exact: half_in_range | exact: edgeless_column |].
exact: (gdc_isolated_node (7 / 8) edgeless_ge0 half_in_range (@edgeless_column ord0)).
Defined.

(** X12 on four nodes, after two training steps of the counting network. *)
Lemma evaluate_accuracies_four_nodes :
  evaluate id (steps_forward 2) four_nodes true
    = Some (EvalDict (2%:R / 2%:R) (Some (0%:R / 2%:R))) /\
  [/\ 0 <= (2%:R / 2%:R : rat) <= 1, isSome (Some (0%:R / 2%:R : rat)) = true
    & forall t : rat, Some (0%:R / 2%:R) = Some t -> 0 <= t <= 1].
Proof.
have ev_eq : evaluate id (steps_forward 2) four_nodes true
    = Some (EvalDict (2%:R / 2%:R) (Some (0%:R / 2%:R))) by [].
split; [exact: ev_eq | exact: (evaluate_accuracies ev_eq)].
Defined.

(** X13 on the validation nodes of the same evaluation. *)
Lemma accuracy_perfect_four_nodes :
  [/\ size (steps_forward 2) = size (val_mask four_nodes),
      size (data_y four_nodes) = size (val_mask four_nodes),
      has id (val_mask four_nodes)
    & (accuracy id (steps_forward 2) (data_y four_nodes) (val_mask four_nodes)
         == Some 1) =
      all (fun x => x.1 ==> (id x.2.1 == x.2.2))
          (zip (val_mask four_nodes)
               (zip (steps_forward 2) (data_y four_nodes)))].
Proof.
split; [by [] | by [] | by [] |].
exact: (@accuracy_perfect _ id (steps_forward 2) (data_y four_nodes)
          (val_mask four_nodes) erefl erefl isT).
Defined.

(** The run of the peaking network on four nodes, with [patience = 2] and
    [max_epochs = 10]: the validation accuracy is 1/2, then 1, then 0; epoch 2
    is recorded and the loop stops after epoch 4. *)
Lemma peak_well_shaped : well_shaped peak_forward four_nodes.
Proof. by split=> // -[|[|[|m]]]. Qed.

Lemma peak_run :
  run_seed id succn peak_forward four_nodes true 10 2 0%N
    = Some (4%N, TmpDict (2%:R / 2%:R) (Some 2%N) (Some (0%:R / 2%:R))).
Proof. by []. Qed.
(** X14 on that run. *)
Lemma run_seed_selection_four_nodes :
  [/\ has id (val_mask four_nodes), true ==> has id (test_mask four_nodes),
      (0 < 2)%N, (0 < 10)%N & well_shaped peak_forward four_nodes] /\
  exists m' tmp' e ev,
    [/\ run_seed id succn peak_forward four_nodes true 10 2 0%N
          = Some (m', tmp'),
        tmp_epoch tmp' = Some e,
        (0 < e <= 10)%N,
        evaluate id (peak_forward (iter e succn 0%N)) four_nodes true = Some ev
      & tmp_val_acc tmp' = val_acc ev /\ tmp_test_acc tmp' = test_acc ev].
Proof.
split; first by split=> //; exact: peak_well_shaped.
exact: (@run_seed_selection _ id _ succn peak_forward four_nodes true 10 2 0%N
          isT isT isT isT peak_well_shaped).
Defined.

(** X15 on that run. *)
Lemma run_seed_best_four_nodes :
  [/\ has id (val_mask four_nodes), true ==> has id (test_mask four_nodes),
      (0 < 2)%N, (0 < 10)%N & well_shaped peak_forward four_nodes] /\
  exists m' tmp' e,
    [/\ run_seed id succn peak_forward four_nodes true 10 2 0%N
          = Some (m', tmp'),
        tmp_epoch tmp' = Some e
      & forall e', (0 < e' <= minn 10 (e + 2))%N ->
          exists2 ev',
            evaluate id (peak_forward (iter e' succn 0%N)) four_nodes true
              = Some ev' &
            val_acc ev' <= tmp_val_acc tmp' /\
            ((e < e')%N -> val_acc ev' < tmp_val_acc tmp')].
Proof.
split; first by split=> //; exact: peak_well_shaped.
exact: (@run_seed_best _ id _ succn peak_forward four_nodes true 10 2 0%N
          isT isT isT isT peak_well_shaped).
Defined.

(** X16 on that run. *)
Lemma run_seed_stop_four_nodes :
  [/\ has id (val_mask four_nodes), true ==> has id (test_mask four_nodes),
      (0 < 2)%N, (0 < 10)%N & well_shaped peak_forward four_nodes] /\
  exists m' tmp' e,
    [/\ run_seed id succn peak_forward four_nodes true 10 2 0%N
          = Some (m', tmp'),
        tmp_epoch tmp' = Some e
      & m' = iter (minn 10 (e + 2)) succn 0%N].
Proof.
split; first by split=> //; exact: peak_well_shaped.
exact: (@run_seed_stop _ id _ succn peak_forward four_nodes true 10 2 0%N
          isT isT isT isT peak_well_shaped).
Defined.

(** X17 on four nodes and the counting network, with [patience = 0]. *)
Lemma run_seed_nothing_four_nodes :
  (0 == 0)%N || (10 == 0)%N /\
  run_seed id succn steps_forward four_nodes true 10 0 0%N
    = Some (0%N, tmp_dict0).
Proof.
split; first by [].
exact: (@run_seed_nothing _ id _ succn steps_forward four_nodes true 10 0 0%N isT).
Defined.

